(** * Pressure projection of [phi/physics/fluid.py]

    A shallow embedding of [make_incompressible], [_balance_divergence],
    [apply_boundary_conditions] and
    [_infer_pressure_extrapolation_from_velocity], together with the
    properties of them that the specification states.

    Numbers are exact rationals ([Qc], canonical fractions with Leibniz
    equality): the properties below are statements of exact arithmetic.
    The backing array of a grid is the list of its cell (or face) values.
    The solve configuration is a heap object, because the default value of
    the [solve] argument is one object shared by every call. *)

From Stdlib Require Import QArith Qcanon.
From stdpp Require Import base option list gmap numbers strings.

Local Open Scope Qc_scope.

(** ** Outcomes *)

(** What a call can end with instead of a value.  [ZeroDivision] records
    that a quotient with a zero divisor was evaluated; exact arithmetic has
    no value for it (floating point answers nan or inf there). *)
Inductive error : Type :=
  | ZeroDivision
  | NotImplementedError
  | UnboundReference
  | SolverFailure.

Inductive result (A : Type) : Type :=
  | Ok (a : A)
  | Err (e : error).
Arguments Ok {A} a.
Arguments Err {A} e.

Global Instance result_ret : MRet result := λ A a, Ok a.
Global Instance result_bind : MBind result := λ A B f r,
  match r with
  | Ok a => f a
  | Err e => Err e
  end.

(** ** Data model *)

(** Modelled from the spec: the boundary rules of [math.extrapolation]
    (constant, zero, periodic, boundary-clamped); the class is not part of
    [fluid.py].  [ZERO] and [ONE] are the constant rules of value 0 and 1,
    so that comparing a rule with [ZERO] compares the constant. *)
Inductive Extrapolation : Type :=
  | ConstantExtrapolation (value : Qc)
  | PERIODIC
  | BOUNDARY.

Definition ZERO : Extrapolation := ConstantExtrapolation 0.
Definition ONE : Extrapolation := ConstantExtrapolation 1.

Global Instance Extrapolation_eq_dec : EqDecision Extrapolation.
Proof. solve_decision. Defined.

Inductive GridType : Type := CenteredGrid | StaggeredGrid.

Record Box : Type := mkBox { lower : list Qc; upper : list Qc }.

(** A sampled field: [type(grid)], the backing array, [resolution],
    [bounds] and the extrapolation rule. *)
Record Grid : Type := mkGrid {
  gtype : GridType;
  values : list Qc;
  resolution : list nat;
  bounds : Box;
  extrapolation : Extrapolation
}.

Definition with_values (g : Grid) (v : list Qc) : Grid :=
  mkGrid (gtype g) v (resolution g) (bounds g) (extrapolation g).

(** [grid.with_(extrapolation=e)] *)
Definition with_extrapolation (g : Grid) (e : Extrapolation) : Grid :=
  mkGrid (gtype g) (values g) (resolution g) (bounds g) e.

(** An obstacle: the attributes that [fluid.py] reads. *)
Record Obstacle (Geometry : Type) : Type := mkObstacle {
  geometry : Geometry;
  velocity : list Qc;
  angular_velocity : Qc;
  is_stationary : bool
}.
Arguments mkObstacle {Geometry} _ _ _ _.
Arguments geometry {Geometry} _.
Arguments velocity {Geometry} _.
Arguments angular_velocity {Geometry} _.
Arguments is_stationary {Geometry} _.

(** ** The solve configuration and the object store *)

Definition loc : Type := positive.

(** [math.Solve(solver, relative_tolerance, absolute_tolerance,
    gradient_solve=..., x0=...)]; [gradient_solve] is a reference to
    another configuration object. *)
Record Solve : Type := mkSolve {
  solver : string;
  relative_tolerance : Qc;
  absolute_tolerance : Qc;
  gradient_solve : option loc;
  x0 : option Grid
}.

Abbreviation heap := (gmap loc Solve).

(** Computations that read and allocate configuration objects and may
    fail. *)
Definition M (A : Type) : Type := heap → result (A * heap).

Global Instance M_ret : MRet M := λ A a h, Ok (a, h).
Global Instance M_bind : MBind M := λ A B f m h,
  match m h with
  | Ok (a, h') => f a h'
  | Err e => Err e
  end.

Definition lift {A : Type} (r : result A) : M A := λ h,
  match r with
  | Ok a => Ok (a, h)
  | Err e => Err e
  end.

(** Attribute access on the object behind a reference. *)
Definition deref (l : loc) : M Solve := λ h,
  match h !! l with
  | Some s => Ok (s, h)
  | None => Err UnboundReference
  end.

(** Attribute assignment: the object behind [l] becomes [s]. *)
Definition store (l : loc) (s : Solve) : M unit := λ h, Ok ((), <[l := s]> h).

(** A new object at an unused address. *)
Definition alloc (s : Solve) : M loc := λ h,
  let l := fresh (dom h) in Ok (l, <[l := s]> h).

(** Modelled from the spec: [copy_with] of [phi.math._tensors] is not part
    of [fluid.py]; it builds a copy of the configuration with the named
    attribute replaced (here [x0]) and leaves its argument as it is.  The
    copy is shallow: it shares [gradient_solve]. *)
Definition copy_with_x0 (l : loc) (guess : Grid) : M loc :=
  s ← deref l;
  alloc (mkSolve (solver s) (relative_tolerance s) (absolute_tolerance s)
                 (gradient_solve s) (Some guess)).

(** The default of the [solve] argument, built once when the module is
    loaded: [math.Solve('auto', 1e-5, 0,
    gradient_solve=math.Solve('auto', 1e-5, 1e-5))]. *)
Definition tol : Qc := Q2Qc (1 # 100000).
Definition default_gradient_solve_loc : loc := 1%positive.
Definition default_solve_loc : loc := 2%positive.
Definition default_gradient_solve : Solve :=
  mkSolve "auto" tol tol None None.
Definition default_solve : Solve :=
  mkSolve "auto" tol 0 (Some default_gradient_solve_loc) None.
Definition module_heap : heap :=
  <[default_solve_loc := default_solve]>
    (<[default_gradient_solve_loc := default_gradient_solve]> ∅).

(** ** Elementwise arithmetic of fields *)

Inductive binop : Type := Add | Sub | Mul.

Definition eval_binop (o : binop) : Qc → Qc → Qc :=
  match o with
  | Add => Qcplus
  | Sub => Qcminus
  | Mul => Qcmult
  end.

(** [math.minimum] *)
Definition minimum (a b : Qc) : Qc := if decide (a ≤ b) then a else b.

Fixpoint sum (l : list Qc) : Qc :=
  match l with
  | [] => 0
  | x :: l' => x + sum l'
  end.

Definition divide (a b : Qc) : result Qc :=
  if decide (b = 0) then Err ZeroDivision else Ok (a / b).

(** [field.mean]: the sum of the values over their number. *)
Definition mean (g : Grid) : result Qc :=
  divide (sum (values g)) (Qc_of_Z (Z.of_nat (length (values g)))).

(** [grid * c] and [c - grid] for a number [c]. *)
Definition scale (g : Grid) (c : Qc) : Grid :=
  with_values g ((λ x, x * c) <$> values g).
Definition rsub (c : Qc) (g : Grid) : Grid :=
  with_values g ((λ x, c - x) <$> values g).

(** Modelled from the spec: [field.where(mask, a, b)] of [phi.field] takes
    the value of [a] in the cells where the mask is nonzero and the value
    of [b] in the others. *)
Definition field_where (mask a b : Grid) : Grid :=
  with_values a
    (zip_with (λ m ab, if decide (m = 0) then ab.2 else ab.1)
              (values mask) (zip (values a) (values b))).

Definition cell_count (resolution : list nat) : nat := foldr Nat.mul 1%nat resolution.

(** [CenteredGrid(c, resolution=r, bounds=b, extrapolation=e)] for a
    number [c]. *)
Definition constant_grid (c : Qc) (r : list nat) (b : Box) (e : Extrapolation) : Grid :=
  mkGrid CenteredGrid (replicate (cell_count r) c) r b e.

(** ** The collaborators of [fluid.py]

    [fluid.py] imports its geometry, its differential operators, the
    extrapolation algebra and the linear solver from [phi.math],
    [phi.field] and [phi.geom]; none of them is defined in it.  They are
    the fields of an interface, and the functions of [fluid.py] are
    defined over any implementation of it. *)
Record Lib : Type := mkLib {
  Geometry : Type;
  (** [union(...)] and [~geometry] of [phi.geom] *)
  union : list Geometry → Geometry;
  invert : Geometry → Geometry;
  center : Geometry → list Qc;
  (** the values of [CenteredGrid(HardGeometryMask(g), resolution=r, bounds=b)] *)
  HardGeometryMask : Geometry → list nat → Box → list Qc;
  (** [HardGeometryMask(g) >> grid] and [SoftGeometryMask(g, balance=c) >> grid] *)
  HardGeometryMask_at : Geometry → Grid → Grid;
  SoftGeometryMask_at : Geometry → Qc → Grid → Grid;
  (** [AngularVelocity(location=x, strength=w, falloff=None).at(grid)] *)
  AngularVelocity_at : list Qc → Qc → Grid → Grid;
  (** [grid + v] for the linear velocity [v] of an obstacle *)
  add_vector : Grid → list Qc → Grid;
  bake_extrapolation : Grid → Grid;
  divergence : Grid → Grid;
  spatial_gradient : Grid → GridType → Grid;
  stagger : Grid → (Qc → Qc → Qc) → Extrapolation → GridType → Grid;
  (** [e1 / e2], [e.integral()] and the rule of [a op b] from the rules of
      [a] and [b] *)
  truediv : Extrapolation → Extrapolation → Extrapolation;
  integral : Extrapolation → Extrapolation;
  combine : binop → Extrapolation → Extrapolation → Extrapolation;
  (** [field.solve_linear(f, y=y, solve=solve)]: it receives the reference
      of its configuration and may fail *)
  solve_linear : (Grid → Grid) → Grid → loc → M Grid
}.

(** Modelled from the spec: [math.custom_gradient(f, gradient)] of
    [phi.math] pairs a forward function with a backward rule; calling the
    pair computes the forward function, the rule is kept for the backward
    pass. *)
Record CustomGradient : Type := custom_gradient {
  forward : Grid → Grid;
  backward : Grid → Grid → Grid → result Grid
}.

Definition call (f : CustomGradient) (x : Grid) : Grid := forward f x.

Section Fluid.
Context (L : Lib).

(** [a op b] for two fields: the values elementwise, the rule from the
    rules of both. *)
Definition field_op (o : binop) (a b : Grid) : Grid :=
  mkGrid (gtype a) (zip_with (eval_binop o) (values a) (values b))
         (resolution a) (bounds a)
         (combine L o (extrapolation a) (extrapolation b)).

(** [fluid.py], lines 70-71. *)
Definition _balance_divergence (div active : Grid) : result Grid :=
  md ← mean div;
  ma ← mean active;
  q ← divide md ma;
  mret (field_op Sub div (scale active q)).

(** One turn of the loop over the obstacles, lines 93-97. *)
Definition add_obstacle_velocity (velocity0 : Grid) (obstacle : Obstacle (Geometry L)) : Grid :=
  if negb (is_stationary obstacle) then
    let obs_mask := SoftGeometryMask_at L (geometry obstacle) 1 velocity0 in
    let angular_velocity0 :=
      AngularVelocity_at L (center L (geometry obstacle))
                         (angular_velocity obstacle) velocity0 in
    let obs_vel := add_vector L angular_velocity0 (velocity obstacle) in
    field_op Add (field_op Mul (rsub 1 obs_mask) velocity0)
                 (field_op Mul obs_mask obs_vel)
  else velocity0.

(** [fluid.py], lines 74-98. *)
Definition apply_boundary_conditions (velocity0 : Grid)
    (obstacles : list (Obstacle (Geometry L))) : Grid :=
  let velocity1 := bake_extrapolation L velocity0 in
  match obstacles with
  | [] => velocity1
  | _ :: _ =>
      let bcs := rsub 1 (HardGeometryMask_at L (union L (geometry <$> obstacles)) velocity1) in
      let velocity2 := field_op Mul velocity1 bcs in
      foldl add_obstacle_velocity velocity2 obstacles
  end.

(** [fluid.py], lines 101-102. *)
Definition _infer_pressure_extrapolation_from_velocity
    (velocity_extraplation : Extrapolation) : result Extrapolation :=
  Err NotImplementedError.

(** The mask of the cells outside every obstacle, lines 35 and 61:
    [CenteredGrid(HardGeometryMask(~union(geometries)), resolution=r, bounds=b)];
    the constructor's default rule is [ZERO]. *)
Definition active_mask (obstacles : list (Obstacle (Geometry L)))
    (r : list nat) (b : Box) : Grid :=
  mkGrid CenteredGrid
         (HardGeometryMask L (invert L (union L (geometry <$> obstacles))) r b)
         r b ZERO.

(** Line 32. *)
Definition accessible_extrapolation (velocity0 : Grid) : Extrapolation :=
  truediv L (extrapolation velocity0) BOUNDARY.

(** Line 33. *)
Definition pressure_extrapolation (velocity0 : Grid) : Extrapolation :=
  integral L (extrapolation velocity0).

(** Lines 35-37: [hard_bcs], the accessible mask on the faces. *)
Definition hard_bcs (velocity0 : Grid) (obstacles : list (Obstacle (Geometry L))) : Grid :=
  let active := active_mask obstacles (resolution velocity0) (bounds velocity0) in
  let accessible := with_extrapolation active (accessible_extrapolation velocity0) in
  stagger L accessible minimum (accessible_extrapolation velocity0) (gtype velocity0).

(** Line 40 and line 58: [input_velocity.extrapolation in (ZERO, PERIODIC)]. *)
Definition closed_or_periodic (e : Extrapolation) : bool :=
  bool_decide (e = ZERO) || bool_decide (e = PERIODIC).

(** Lines 38-41: the right-hand side of the pressure equation.  The
    first argument is the velocity as it was passed in, the second is
    the velocity after line 38. *)
Definition masked_divergence (input_velocity velocity1 : Grid)
    (obstacles : list (Obstacle (Geometry L))) : result Grid :=
  let active := active_mask obstacles (resolution input_velocity) (bounds input_velocity) in
  let div := field_op Mul (divergence L velocity1) active in
  if closed_or_periodic (extrapolation input_velocity)
  then _balance_divergence div active
  else mret div.

(** Lines 48-49: [grad] after the multiplication with [hard_bcs]. *)
Definition masked_gradient (vtype : GridType) (bcs p : Grid) : Grid :=
  field_op Mul (spatial_gradient L p vtype) bcs.

(** Lines 46-53: the operator handed to the solver; [vtype], [bcs], [e]
    and [active] are what the closure captures ([type(velocity)],
    [hard_bcs], [input_velocity.extrapolation], [active]). *)
Definition laplace (vtype : GridType) (bcs : Grid) (e : Extrapolation)
    (active p : Grid) : Grid :=
  let grad := masked_gradient vtype bcs p in
  let grad := with_extrapolation grad e in
  let div := divergence L grad in
  let lap := field_where active div p in
  lap.

(** Lines 59-62: the backward rule; it builds the mask again from the
    resolution and the bounds of [dp]. *)
Definition pressure_backward (obstacles : list (Obstacle (Geometry L)))
    (_p _p_ dp : Grid) : result Grid :=
  let active := active_mask obstacles (resolution dp) (bounds dp) in
  _balance_divergence dp active.

(** Lines 55-56: the configuration that the solver gets. *)
Definition with_initial_guess (solve : loc) (div : Grid) (pe : Extrapolation) : M loc :=
  s ← deref solve;
  match x0 s with
  | None => copy_with_x0 solve (constant_grid 0 (resolution div) (bounds div) pe)
  | Some _ => mret solve
  end.

(** Lines 58-63. *)
Definition wrap_pressure (input_velocity : Grid)
    (obstacles : list (Obstacle (Geometry L))) (pressure : Grid) : Grid :=
  if closed_or_periodic (extrapolation input_velocity)
  then call (custom_gradient (λ p, p) (pressure_backward obstacles)) pressure
  else pressure.

(** Lines 44-67: the pressure solve and the projection, once the
    right-hand side [div] of lines 38-41 is there. *)
Definition solve_and_project (velocity0 : Grid)
    (obstacles : list (Obstacle (Geometry L))) (solve : loc) (div : Grid) :
    M (Grid * Grid) :=
  let input_velocity := velocity0 in
  let active := active_mask obstacles (resolution velocity0) (bounds velocity0) in
  let bcs := hard_bcs velocity0 obstacles in
  let velocity1 := apply_boundary_conditions velocity0 obstacles in
  solve' ← with_initial_guess solve div (pressure_extrapolation velocity0);
  pressure ← solve_linear L
    (laplace (gtype velocity1) bcs (extrapolation input_velocity) active) div solve';
  let pressure := wrap_pressure input_velocity obstacles pressure in
  let gradp := field_op Mul (spatial_gradient L pressure (gtype velocity1)) bcs in
  let velocity2 :=
    with_extrapolation (field_op Sub velocity1 gradp) (extrapolation input_velocity) in
  mret (velocity2, pressure).

(** [fluid.py], lines 13-67. *)
Definition make_incompressible (velocity0 : Grid)
    (obstacles : list (Obstacle (Geometry L))) (solve : loc) : M (Grid * Grid) :=
  let input_velocity := velocity0 in
  let velocity1 := apply_boundary_conditions velocity0 obstacles in
  div ← lift (masked_divergence input_velocity velocity1 obstacles);
  solve_and_project velocity0 obstacles solve div.

(** The projection as the specification words it where there is no
    differentiation layer (section 9: the gradient hook is left out):
    steps 1 to 6 and 8 to 10 of section 4.4, the solved pressure is used
    as the solver returns it. *)
Definition make_incompressible_without_hook (velocity0 : Grid)
    (obstacles : list (Obstacle (Geometry L))) (solve : loc) : M (Grid * Grid) :=
  let active := active_mask obstacles (resolution velocity0) (bounds velocity0) in
  let bcs := hard_bcs velocity0 obstacles in
  let velocity1 := apply_boundary_conditions velocity0 obstacles in
  div ← lift (masked_divergence velocity0 velocity1 obstacles);
  solve' ← with_initial_guess solve div (pressure_extrapolation velocity0);
  p ← solve_linear L
    (laplace (gtype velocity1) bcs (extrapolation velocity0) active) div solve';
  let gradp := field_op Mul (spatial_gradient L p (gtype velocity1)) bcs in
  mret (with_extrapolation (field_op Sub velocity1 gradp) (extrapolation velocity0), p).

End Fluid.

(** ** An implementation of the interface

    A periodic grid in one dimension with finite differences on the
    staggered layout: cell [i] lies between the faces [i] and [i+1], and
    the indices wrap around.  A geometry is the set of the indices it
    covers.  It is used to run the functions above on concrete fields. *)
Module Periodic1D.

Definition indicator (g : nat → bool) (n : nat) : list Qc :=
  (λ i, if g i then 1 else 0) <$> seq 0 n.

(** [next l] holds [l[i+1]] at [i], [prev l] holds [l[i-1]]. *)
Definition next (l : list Qc) : list Qc := rotate 1 l.
Definition prev (l : list Qc) : list Qc := rotate (length l - 1) l.

Definition divergence1D (v : Grid) : Grid :=
  mkGrid CenteredGrid (zip_with Qcminus (next (values v)) (values v))
         (resolution v) (bounds v) (extrapolation v).

Definition spatial_gradient1D (p : Grid) (t : GridType) : Grid :=
  mkGrid t (zip_with Qcminus (values p) (prev (values p)))
         (resolution p) (bounds p) (extrapolation p).

Definition stagger1D (g : Grid) (face : Qc → Qc → Qc) (e : Extrapolation)
    (t : GridType) : Grid :=
  mkGrid t (zip_with face (prev (values g)) (values g))
         (resolution g) (bounds g) e.

Definition truediv1D (e1 e2 : Extrapolation) : Extrapolation :=
  match e1 with
  | PERIODIC => PERIODIC
  | BOUNDARY => ONE
  | ConstantExtrapolation _ => ZERO
  end.

Definition integral1D (e : Extrapolation) : Extrapolation :=
  match e with
  | ConstantExtrapolation _ => BOUNDARY
  | _ => e
  end.

Definition combine1D (o : binop) (e1 e2 : Extrapolation) : Extrapolation :=
  match e1, e2 with
  | ConstantExtrapolation a, ConstantExtrapolation b =>
      ConstantExtrapolation (eval_binop o a b)
  | _, _ => e1
  end.

(** One correction step from the initial guess; the solver stores its
    answer as the initial guess of the configuration it was given. *)
Definition solve_linear1D (f : Grid → Grid) (y : Grid) (l : loc) : M Grid :=
  s ← deref l;
  match x0 s with
  | None => lift (Err SolverFailure)
  | Some x =>
      let fx := f x in
      let r := with_values x
                 (zip_with Qcplus (values x)
                    (zip_with Qcminus (values y) (values fx))) in
      _ ← store l (mkSolve (solver s) (relative_tolerance s)
                           (absolute_tolerance s) (gradient_solve s) (Some r));
      mret r
  end.

Definition lib_with_bake (bake : Grid → Grid) : Lib :=
  {| Geometry := nat → bool;
     union := λ gs i, existsb (λ g : nat → bool, g i) gs;
     invert := λ g i, negb (g i);
     center := λ _, [0];
     HardGeometryMask := λ g r _, indicator g (cell_count r);
     HardGeometryMask_at := λ g grid,
       with_values grid (indicator g (length (values grid)));
     SoftGeometryMask_at := λ g _ grid,
       with_values grid (indicator g (length (values grid)));
     AngularVelocity_at := λ _ _ grid,
       with_values grid (replicate (length (values grid)) 0);
     add_vector := λ grid v,
       with_values grid ((λ x, x + default 0 (head v)) <$> values grid);
     bake_extrapolation := bake;
     divergence := divergence1D;
     spatial_gradient := spatial_gradient1D;
     stagger := stagger1D;
     truediv := truediv1D;
     integral := integral1D;
     combine := combine1D;
     solve_linear := solve_linear1D |}.

(** On the periodic grid there is nothing to bake. *)
Definition lib : Lib := lib_with_bake (λ grid, grid).

(** A library whose baked grids carry another rule than the grid they
    come from. *)
Definition rebaking_lib : Lib := lib_with_bake (λ grid, with_extrapolation grid BOUNDARY).

Definition unit_box : Box := mkBox [0] [1].

Definition of_Z (n : Z) : Qc := Qc_of_Z n.

(** A periodic staggered velocity on four cells, and the same on an open
    and on a closed domain. *)
Definition v4 : Grid :=
  mkGrid StaggeredGrid (of_Z <$> [1; 3; 4; 2]%Z) [4%nat] unit_box PERIODIC.
Definition v4_open : Grid := with_extrapolation v4 BOUNDARY.
Definition v4_closed : Grid := with_extrapolation v4 ZERO.

(** A candidate pressure on the same four cells. *)
Definition p4 : Grid :=
  mkGrid CenteredGrid (of_Z <$> [2; 5; 1; 3]%Z) [4%nat] unit_box PERIODIC.

(** A resting obstacle on cell 1, a moving one on cell 2, and one that
    covers the whole grid. *)
Definition wall : Obstacle (nat → bool) :=
  mkObstacle (λ i, bool_decide (i = 1%nat)) [0] 0 true.
Definition paddle : Obstacle (nat → bool) :=
  mkObstacle (λ i, bool_decide (i = 2%nat)) [of_Z 5] 0 false.
Definition block : Obstacle (nat → bool) :=
  mkObstacle (λ _, true) [0] 0 true.

(** The numerators and denominators of the values, for reading them. *)
Definition show (g : Grid) : list Q := this <$> values g.

End Periodic1D.

(** ** Notions used to state the properties *)

(** [a * p1 + p2] on the values; the rest of the grid is that of [p1]. *)
Definition axpy (a : Qc) (p1 p2 : Grid) : Grid :=
  with_values p1 (zip_with (λ x y, a * x + y) (values p1) (values p2)).

(** Two fields sampled on the same grid under the same rule. *)
Definition same_grid (p1 p2 : Grid) : Prop :=
  gtype p1 = gtype p2 ∧
  length (values p1) = length (values p2) ∧
  resolution p1 = resolution p2 ∧
  bounds p1 = bounds p2 ∧
  extrapolation p1 = extrapolation p2.

(** A linear operator on the fields of a grid. *)
Definition linear (f : Grid → Grid) : Prop :=
  ∀ (a : Qc) (p1 p2 : Grid),
    same_grid p1 p2 →
    same_grid (f p1) (f p2) ∧ f (axpy a p1 p2) = axpy a (f p1) (f p2).

(** The solver assigns attributes of no configuration but the one it is
    given. *)
Definition solver_frame (L : Lib) : Prop :=
  ∀ (f : Grid → Grid) (y : Grid) (l : loc) (h h' : heap) (r : Grid),
    solve_linear L f y l h = Ok (r, h') →
    ∀ l' : loc, l' ≠ l → h' !! l' = h !! l'.

(** ** Sums and means *)

Lemma Qc_of_nat_zero (n : nat) : Qc_of_Z (Z.of_nat n) = 0 ↔ n = 0%nat.
Proof.
  split.
  - intros H. apply (f_equal this) in H. simpl in H.
    injection H as H. lia.
  - intros ->. by apply Qc_is_canon.
Qed.

Lemma divide_Ok (a b : Qc) : b ≠ 0 → divide a b = Ok (a / b).
Proof. intros Hb. unfold divide. by rewrite decide_False. Qed.

Lemma divide_Err (a : Qc) : divide a 0 = Err ZeroDivision.
Proof. unfold divide. by rewrite decide_True. Qed.

Lemma divide_inv (a b : Qc) (r : result Qc) :
  divide a b = r →
  (b = 0 ∧ r = Err ZeroDivision) ∨ (b ≠ 0 ∧ r = Ok (a / b)).
Proof. unfold divide. case_decide; intros <-; auto. Qed.

Lemma sum_scale (l : list Qc) (c : Qc) : sum ((λ x, x * c) <$> l) = sum l * c.
Proof. induction l as [|x l IH]; csimpl; [ring | rewrite IH; ring]. Qed.

Lemma sum_zip_with_minus (l k : list Qc) :
  length l = length k → sum (zip_with Qcminus l k) = sum l - sum k.
Proof.
  revert k. induction l as [|x l IH]; intros [|y k] Hlen; simplify_eq/=.
  - ring.
  - rewrite IH by done. ring.
Qed.

Lemma sum_nonneg (l : list Qc) : Forall (λ x, 0 ≤ x) l → 0 ≤ sum l.
Proof.
  induction 1 as [|x l Hx _ IH]; simpl; [done|].
  by apply Qcplus_nonneg_nonneg.
Qed.

Lemma sum_zero_all_zero (l : list Qc) :
  Forall (λ x, 0 ≤ x) l → sum l = 0 → Forall (λ x, x = 0) l.
Proof.
  induction 1 as [|x l Hx Hl IH]; simpl; intros Hs; [constructor|].
  pose proof (sum_nonneg l Hl) as Hnn.
  assert (x = 0) as ->.
  { apply (anti_symm Qcle); [|done].
    rewrite <- Hs. rewrite <- (Qcplus_0_r x) at 1.
    by apply Qcplus_le_mono_l. }
  constructor; [done|]. apply IH. rewrite <- Hs. ring.
Qed.

Lemma sum_all_zero (l : list Qc) : Forall (λ x, x = 0) l → sum l = 0.
Proof. induction 1 as [|x l -> _ IH]; simpl; [done | rewrite IH; ring]. Qed.

Lemma mean_Ok_inv (g : Grid) (m : Qc) :
  mean g = Ok m →
  values g ≠ [] ∧ m = sum (values g) / Qc_of_Z (Z.of_nat (length (values g))).
Proof.
  unfold mean. intros H. apply divide_inv in H as [[_ ?]|[Hn H]]; [done|].
  simplify_eq. split; [|done].
  intros Hnil. apply Hn. rewrite Hnil. by apply Qc_of_nat_zero.
Qed.

Lemma mean_nonempty (g : Grid) :
  values g ≠ [] →
  mean g = Ok (sum (values g) / Qc_of_Z (Z.of_nat (length (values g)))).
Proof.
  intros Hne. apply divide_Ok. rewrite Qc_of_nat_zero.
  destruct (values g); simpl; [done | lia].
Qed.

(** ** Mass balance *)

Lemma balance_divergence_eq (L : Lib) (div active : Grid) (md ma : Qc) :
  mean div = Ok md → mean active = Ok ma → ma ≠ 0 →
  _balance_divergence L div active = Ok (field_op L Sub div (scale active (md / ma))).
Proof.
  intros Hd Ha Hma. unfold _balance_divergence.
  rewrite Hd, Ha. simpl. by rewrite (divide_Ok _ _ Hma).
Qed.

(** The sum of [d - a * ((sum d / n) / (sum a / n))] is zero. *)
Lemma sum_balanced (d a : list Qc) (n : Qc) :
  length d = length a → n ≠ 0 → sum a ≠ 0 →
  sum (zip_with Qcminus d ((λ x, x * (sum d / n / (sum a / n))) <$> a)) = 0.
Proof.
  intros Hlen Hn Ha.
  rewrite sum_zip_with_minus by (by rewrite length_fmap).
  rewrite sum_scale. field. auto.
Qed.

Lemma balanced_mean_zero (L : Lib) (div active : Grid) (ma : Qc) :
  length (values div) = length (values active) →
  mean active = Ok ma →
  ma ≠ 0 →
  ∃ md,
    mean div = Ok md ∧
    mean (field_op L Sub div (scale active (md / ma))) = Ok 0.
Proof.
  intros Hlen Ha Hma.
  destruct (mean_Ok_inv _ _ Ha) as [Hne Hma_eq].
  assert (values div ≠ []) as Hdne.
  { intros Hnil. rewrite Hnil in Hlen. destruct (values active); done. }
  set (n := Qc_of_Z (Z.of_nat (length (values active)))) in *.
  assert (n ≠ 0) as Hn.
  { unfold n. rewrite Qc_of_nat_zero. destruct (values active); simpl; [done|lia]. }
  pose proof (mean_nonempty div Hdne) as Hd. rewrite Hlen in Hd. fold n in Hd.
  eexists. split; [exact Hd|].
  assert (sum (values active) ≠ 0) as Hsa.
  { intros Hz. apply Hma. rewrite Hma_eq, Hz. unfold Qcdiv. ring. }
  unfold mean.
  replace (length (values (field_op L Sub div (scale active (sum (values div) / n / ma)))))
    with (length (values active))
    by (simpl; rewrite length_zip_with, length_fmap; lia).
  fold n. rewrite (divide_Ok _ _ Hn). f_equal.
  simpl. rewrite Hma_eq, sum_balanced by done. unfold Qcdiv. ring.
Qed.

(** C1.  For a divergence field and an active mask on the same grid, if
    the mean of the mask is defined and not zero, then
    [_balance_divergence] returns [div - active * (mean(div) / mean(active))]
    and the mean of what it returns is exactly zero. *)
Theorem balance_divergence_mean_zero (L : Lib) (div active : Grid) (ma : Qc) :
  length (values div) = length (values active) →
  mean active = Ok ma →
  ma ≠ 0 →
  ∃ md div',
    mean div = Ok md ∧
    _balance_divergence L div active = Ok div' ∧
    values div' =
      zip_with Qcminus (values div) ((λ x, x * (md / ma)) <$> values active) ∧
    mean div' = Ok 0.
Proof.
  intros Hlen Ha Hma.
  destruct (balanced_mean_zero L div active ma Hlen Ha Hma) as (md & Hd & Hzero).
  exists md, (field_op L Sub div (scale active (md / ma))).
  split; [done|]. split; [by apply balance_divergence_eq|]. done.
Qed.

Lemma balance_divergence_mean_zero_witness :
  let active := active_mask Periodic1D.lib [Periodic1D.wall] [4%nat] Periodic1D.unit_box in
  let div :=
    field_op Periodic1D.lib Mul
      (divergence Periodic1D.lib
         (apply_boundary_conditions Periodic1D.lib Periodic1D.v4 [Periodic1D.wall]))
      active in
  Periodic1D.show div = [(-1)%Q; 0%Q; (-2)%Q; (-1)%Q] ∧
  ∃ div',
    _balance_divergence Periodic1D.lib div active = Ok div' ∧
    values div' =
      zip_with Qcminus (values div)
        ((λ x, x * (sum (values div) / Periodic1D.of_Z 4
                    / (sum (values active) / Periodic1D.of_Z 4))) <$> values active) ∧
    mean div' = Ok 0.
Proof.
  intros active div. split; [vm_compute; reflexivity|].
  destruct (balance_divergence_mean_zero Periodic1D.lib div active
              (sum (values active) / Periodic1D.of_Z 4))
    as (md & div' & Hd & Hb & Hv & Hm).
  - reflexivity.
  - apply mean_nonempty. discriminate.
  - intros H. apply (f_equal this) in H. vm_compute in H. discriminate.
  - exists div'. split; [assumption|]. split; [|assumption].
    rewrite Hv. rewrite (mean_nonempty div) in Hd by discriminate.
    injection Hd as <-. reflexivity.
Defined.


Lemma pressure_backward_balanced (L : Lib) (obstacles : list (Obstacle (Geometry L)))
    (p p' dp : Grid) (ma : Qc) :
  let active := active_mask L obstacles (resolution dp) (bounds dp) in
  length (values dp) = length (values active) →
  mean active = Ok ma → ma ≠ 0 →
  ∃ g, pressure_backward L obstacles p p' dp = Ok g ∧ mean g = Ok 0.
Proof.
  intros active Hlen Ha Hma. unfold pressure_backward. fold active.
  clearbody active.
  destruct (balanced_mean_zero L dp active ma) as (md & Hd & Hzero); try done.
  eexists. split; [by apply balance_divergence_eq|]. done.
Qed.

(** ** The operator of the pressure equation *)

Lemma zip_with_axpy_mul (a : Qc) (g1 g2 b : list Qc) :
  zip_with Qcmult (zip_with (λ x y, a * x + y) g1 g2) b =
  zip_with (λ x y, a * x + y) (zip_with Qcmult g1 b) (zip_with Qcmult g2 b).
Proof.
  revert g2 b. induction g1 as [|x g1 IH]; intros [|y g2] [|z b]; simpl; try done.
  f_equal; [ring | apply IH].
Qed.

Lemma where_values_axpy (a : Qc) (m d1 d2 p1 p2 : list Qc) :
  zip_with (λ m ab, if decide (m = 0) then ab.2 else ab.1) m
    (zip (zip_with (λ x y, a * x + y) d1 d2) (zip_with (λ x y, a * x + y) p1 p2)) =
  zip_with (λ x y, a * x + y)
    (zip_with (λ m ab, if decide (m = 0) then ab.2 else ab.1) m (zip d1 p1))
    (zip_with (λ m ab, if decide (m = 0) then ab.2 else ab.1) m (zip d2 p2)).
Proof.
  revert d1 d2 p1 p2.
  induction m as [|x m IH]; intros [|u1 d1] [|u2 d2] [|v1 p1] [|v2 p2];
    simpl; try done.
  f_equal; [by case_decide | apply IH].
Qed.

Lemma same_grid_masked (t : GridType) (L : Lib) (bcs : Grid) (e : Extrapolation)
    (g1 g2 : Grid) :
  same_grid g1 g2 →
  same_grid (with_extrapolation (field_op L Mul g1 bcs) e)
            (with_extrapolation (field_op L Mul g2 bcs) e).
Proof.
  intros (Ht & Hl & Hr & Hb & He). repeat split; simpl; try done.
  rewrite !length_zip_with. lia.
Qed.

(** C2.  With the masks and the captured extrapolation fixed, the operator
    handed to the solver is linear in the candidate pressure, as soon as
    the gradient and the divergence of the field library are:
    [laplace(a * p1 + p2) = a * laplace(p1) + laplace(p2)] for the fields
    [p1], [p2] of one grid. *)
Theorem laplace_linear (L : Lib) (t : GridType) (bcs : Grid) (e : Extrapolation)
    (active : Grid) :
  linear (λ p, spatial_gradient L p t) →
  linear (divergence L) →
  linear (laplace L t bcs e active).
Proof.
  intros Hgrad Hdiv a p1 p2 Hs.
  destruct (Hgrad a p1 p2 Hs) as [Hsg Hga].
  pose proof (same_grid_masked t L bcs e _ _ Hsg) as HsG.
  destruct (Hdiv a _ _ HsG) as [HsD HDa].
  pose (G := λ p, with_extrapolation (field_op L Mul (spatial_gradient L p t) bcs) e).
  assert (G (axpy a p1 p2) = axpy a (G p1) (G p2)) as HG.
  { unfold G. rewrite Hga.
    unfold axpy, with_extrapolation, field_op, with_values. simpl.
    f_equal. apply zip_with_axpy_mul. }
  change (laplace L t bcs e active) with (λ p, field_where active (divergence L (G p)) p).
  unfold G in *. cbv beta in *. rewrite HG, HDa. clear G HG HDa.
  set (D1 := divergence L (with_extrapolation _ e)) in *.
  set (D2 := divergence L (with_extrapolation _ e)) in *.
  destruct HsD as (Ht & Hl & Hr & Hb & He).
  destruct Hs as (Ht' & Hl' & Hr' & Hb' & He').
  split.
  - repeat split; simpl; try done.
    rewrite !length_zip_with. lia.
  - unfold field_where, axpy, with_values. simpl. f_equal.
    apply where_values_axpy.
Qed.

(** The finite differences of the periodic grid are linear. *)
Lemma rotate_zip_with {A B C : Type} (f : A → B → C) (n : nat) (l : list A) (k : list B) :
  length l = length k →
  rotate n (zip_with f l k) = zip_with f (rotate n l) (rotate n k).
Proof.
  intros Hlen. unfold rotate.
  rewrite length_zip_with, <- Hlen, Nat.min_id.
  rewrite zip_with_drop, zip_with_take.
  symmetry. apply zip_with_app. rewrite !length_drop. lia.
Qed.

Lemma zip_with_minus_axpy (a : Qc) (l1 l2 k1 k2 : list Qc) :
  zip_with Qcminus (zip_with (λ x y, a * x + y) l1 l2)
                   (zip_with (λ x y, a * x + y) k1 k2) =
  zip_with (λ x y, a * x + y) (zip_with Qcminus l1 k1) (zip_with Qcminus l2 k2).
Proof.
  revert l2 k1 k2.
  induction l1 as [|x l1 IH]; intros [|y l2] [|u k1] [|v k2]; simpl; try done.
  f_equal; [ring | apply IH].
Qed.

Lemma divergence1D_linear : linear Periodic1D.divergence1D.
Proof.
  intros a p1 p2 (Ht & Hl & Hr & Hb & He). split.
  - repeat split; simpl; try done.
    unfold Periodic1D.next. rewrite !length_zip_with, !length_rotate. lia.
  - unfold Periodic1D.divergence1D, axpy, with_values, Periodic1D.next. simpl.
    f_equal. rewrite rotate_zip_with by done. apply zip_with_minus_axpy.
Qed.

Lemma spatial_gradient1D_linear (t : GridType) :
  linear (λ p, Periodic1D.spatial_gradient1D p t).
Proof.
  intros a p1 p2 (Ht & Hl & Hr & Hb & He). split.
  - repeat split; simpl; try done.
    unfold Periodic1D.prev. rewrite !length_zip_with, !length_rotate. lia.
  - unfold Periodic1D.spatial_gradient1D, axpy, with_values, Periodic1D.prev. simpl.
    f_equal. rewrite length_zip_with, <- Hl, Nat.min_id.
    rewrite rotate_zip_with by done. apply zip_with_minus_axpy.
Qed.

Lemma laplace_linear_witness :
  linear (laplace Periodic1D.lib StaggeredGrid
            (hard_bcs Periodic1D.lib Periodic1D.v4 [Periodic1D.wall]) PERIODIC
            (active_mask Periodic1D.lib [Periodic1D.wall] [4%nat] Periodic1D.unit_box)).
Proof.
  apply (laplace_linear Periodic1D.lib).
  - apply spatial_gradient1D_linear.
  - apply divergence1D_linear.
Defined.

Lemma lookup_where_values (mask a b : list Qc) (i : nat) (m d x : Qc) :
  mask !! i = Some m → a !! i = Some d → b !! i = Some x →
  zip_with (λ m ab, if decide (m = 0) then ab.2 else ab.1) mask (zip a b) !! i
  = Some (if decide (m = 0) then x else d).
Proof.
  intros Hm Ha Hb. rewrite lookup_zip_with, Hm. simpl.
  rewrite lookup_zip_with, Ha. simpl. by rewrite Hb.
Qed.

(** C3.  In a cell where the active mask is 0 the operator returns the
    value of [p] in that cell; in a cell where the mask is not 0 it returns
    the divergence of the masked pressure gradient. *)
Theorem laplace_pointwise (L : Lib) (t : GridType) (bcs : Grid) (e : Extrapolation)
    (active p : Grid) (i : nat) (m d x : Qc) :
  values active !! i = Some m →
  values (divergence L (with_extrapolation (masked_gradient L t bcs p) e)) !! i = Some d →
  values p !! i = Some x →
  values (laplace L t bcs e active p) !! i = Some (if decide (m = 0) then x else d).
Proof.
  intros Hm Hd Hx. unfold laplace, field_where. simpl.
  by apply lookup_where_values.
Qed.

Lemma laplace_pointwise_witness :
  let bcs := hard_bcs Periodic1D.lib Periodic1D.v4 [Periodic1D.wall] in
  let active := active_mask Periodic1D.lib [Periodic1D.wall] [4%nat] Periodic1D.unit_box in
  let lap := laplace Periodic1D.lib StaggeredGrid bcs PERIODIC active Periodic1D.p4 in
  values active !! 1%nat = Some 0 ∧
  values lap !! 1%nat = values Periodic1D.p4 !! 1%nat ∧
  values active !! 2%nat = Some 1 ∧
  values lap !! 2%nat =
    values (divergence Periodic1D.lib
              (with_extrapolation
                 (masked_gradient Periodic1D.lib StaggeredGrid bcs Periodic1D.p4)
                 PERIODIC)) !! 2%nat.
Proof.
  intros bcs active lap.
  split; [reflexivity|]. split.
  - exact (laplace_pointwise Periodic1D.lib StaggeredGrid bcs PERIODIC active
             Periodic1D.p4 1 _ _ _ eq_refl eq_refl eq_refl).
  - split; [reflexivity|].
    exact (laplace_pointwise Periodic1D.lib StaggeredGrid bcs PERIODIC active
             Periodic1D.p4 2 _ _ _ eq_refl eq_refl eq_refl).
Defined.

(** ** When the divergence is balanced *)

Lemma closed_or_periodic_spec (e : Extrapolation) :
  closed_or_periodic e = true ↔ e = ZERO ∨ e = PERIODIC.
Proof.
  unfold closed_or_periodic.
  rewrite orb_true_iff, !bool_decide_eq_true. done.
Qed.

Lemma closed_or_periodic_decide (e : Extrapolation) :
  closed_or_periodic e = bool_decide (e = ZERO ∨ e = PERIODIC).
Proof.
  apply eq_true_iff_eq. rewrite closed_or_periodic_spec.
  symmetry. unfold is_true. apply bool_decide_eq_true.
Qed.

(** C4.  [make_incompressible] passes the divergence through
    [_balance_divergence] exactly when the rule of the velocity it was
    given, before the boundary conditions are enforced, is [ZERO] or
    [PERIODIC]; under any other rule the solve gets the masked divergence
    as it is. *)
Theorem balance_iff_closed_or_periodic (L : Lib) (velocity0 : Grid)
    (obstacles : list (Obstacle (Geometry L))) (solve : loc) :
  let active := active_mask L obstacles (resolution velocity0) (bounds velocity0) in
  let div :=
    field_op L Mul (divergence L (apply_boundary_conditions L velocity0 obstacles)) active in
  make_incompressible L velocity0 obstacles solve =
    (rhs ← lift (if decide (extrapolation velocity0 = ZERO ∨
                            extrapolation velocity0 = PERIODIC)
                 then _balance_divergence L div active
                 else Ok div);
     solve_and_project L velocity0 obstacles solve rhs).
Proof.
  intros active div. unfold make_incompressible, masked_divergence.
  rewrite closed_or_periodic_decide.
  fold active. fold div. by case_bool_decide; case_decide.
Qed.

(** An open domain keeps its net divergence; a periodic one loses it. *)
Example open_domain_unbalanced :
  ∃ div,
    masked_divergence Periodic1D.lib Periodic1D.v4_open
      (apply_boundary_conditions Periodic1D.lib Periodic1D.v4_open [Periodic1D.wall])
      [Periodic1D.wall] = Ok div ∧
    Periodic1D.show div = [(-1)%Q; 0%Q; (-2)%Q; (-1)%Q].
Proof. eexists. split; [reflexivity|]. vm_compute. reflexivity. Qed.

Example periodic_domain_balanced :
  ∃ div,
    masked_divergence Periodic1D.lib Periodic1D.v4
      (apply_boundary_conditions Periodic1D.lib Periodic1D.v4 [Periodic1D.wall])
      [Periodic1D.wall] = Ok div ∧
    Periodic1D.show div = [(1 # 3)%Q; 0%Q; (-2 # 3)%Q; (1 # 3)%Q].
Proof. eexists. split; [vm_compute; reflexivity|]. vm_compute. reflexivity. Qed.

(** The rule that decides is the one of the velocity as it came in: here
    the velocity after the boundary conditions carries [BOUNDARY], and the
    divergence is balanced all the same. *)
Example decided_by_the_input_rule :
  let v1 := apply_boundary_conditions Periodic1D.rebaking_lib Periodic1D.v4_closed
              [Periodic1D.wall] in
  extrapolation Periodic1D.v4_closed = ZERO ∧
  extrapolation v1 = BOUNDARY ∧
  ∃ div,
    masked_divergence Periodic1D.rebaking_lib Periodic1D.v4_closed v1 [Periodic1D.wall]
      = Ok div ∧
    Periodic1D.show div = [(1 # 3)%Q; 0%Q; (-2 # 3)%Q; (1 # 3)%Q].
Proof.
  intros v1. split; [reflexivity|]. split; [reflexivity|].
  eexists. split; [vm_compute; reflexivity|]. vm_compute. reflexivity.
Qed.

(** ** Running the projection *)

Lemma bind_Ok {A B : Type} (m : M A) (f : A → M B) (h h' : heap) (b : B) :
  (m ≫= f) h = Ok (b, h') ↔ ∃ a h1, m h = Ok (a, h1) ∧ f a h1 = Ok (b, h').
Proof.
  unfold mbind, M_bind. split.
  - destruct (m h) as [[a h1]|e]; [|done]. eauto.
  - intros (a & h1 & -> & Hf). done.
Qed.

Lemma bind_Err {A B : Type} (m : M A) (f : A → M B) (h : heap) (e : error) :
  m h = Err e → (m ≫= f) h = Err e.
Proof. unfold mbind, M_bind. by intros ->. Qed.

Lemma lift_Ok {A : Type} (r : result A) (h h' : heap) (a : A) :
  lift r h = Ok (a, h') ↔ r = Ok a ∧ h' = h.
Proof.
  unfold lift. destruct r as [a'|e]; split.
  - intros [= -> ->]. done.
  - intros [[= ->] ->]. done.
  - done.
  - intros [[=] _].
Qed.

Lemma wrap_pressure_id (L : Lib) (velocity0 : Grid)
    (obstacles : list (Obstacle (Geometry L))) (pressure : Grid) :
  wrap_pressure L velocity0 obstacles pressure = pressure.
Proof. unfold wrap_pressure. by destruct (closed_or_periodic _). Qed.

(** A run of lines 44-67 returns if and only if the guess is set up and
    the solver returns; the result is built from the solver's. *)
Lemma solve_and_project_Ok (L : Lib) (velocity0 : Grid)
    (obstacles : list (Obstacle (Geometry L))) (solve : loc) (div : Grid)
    (h h' : heap) (out : Grid * Grid) :
  solve_and_project L velocity0 obstacles solve div h = Ok (out, h') ↔
  ∃ (l : loc) (h1 : heap) (p : Grid),
    with_initial_guess solve div (pressure_extrapolation L velocity0) h = Ok (l, h1) ∧
    solve_linear L
      (laplace L (gtype (apply_boundary_conditions L velocity0 obstacles))
         (hard_bcs L velocity0 obstacles) (extrapolation velocity0)
         (active_mask L obstacles (resolution velocity0) (bounds velocity0)))
      div l h1 = Ok (p, h') ∧
    out =
      (with_extrapolation
         (field_op L Sub (apply_boundary_conditions L velocity0 obstacles)
            (field_op L Mul
               (spatial_gradient L (wrap_pressure L velocity0 obstacles p)
                  (gtype (apply_boundary_conditions L velocity0 obstacles)))
               (hard_bcs L velocity0 obstacles)))
         (extrapolation velocity0),
       wrap_pressure L velocity0 obstacles p).
Proof.
  unfold solve_and_project. rewrite bind_Ok. split.
  - intros (l & h1 & Hg & Hrest). apply bind_Ok in Hrest as (p & h2 & Hs & Hret).
    exists l, h1, p. split; [done|].
    unfold mret, M_ret in Hret. simplify_eq. done.
  - intros (l & h1 & p & Hg & Hs & ->). exists l, h1. split; [done|].
    apply bind_Ok. exists p, h'. done.
Qed.

Lemma make_incompressible_Ok (L : Lib) (velocity0 : Grid)
    (obstacles : list (Obstacle (Geometry L))) (solve : loc) (h h' : heap)
    (out : Grid * Grid) :
  make_incompressible L velocity0 obstacles solve h = Ok (out, h') ↔
  ∃ div : Grid,
    masked_divergence L velocity0 (apply_boundary_conditions L velocity0 obstacles)
      obstacles = Ok div ∧
    solve_and_project L velocity0 obstacles solve div h = Ok (out, h').
Proof.
  unfold make_incompressible. rewrite bind_Ok. split.
  - intros (div & h1 & Hd & Hrest). apply lift_Ok in Hd as [Hd ->]. eauto.
  - intros (div & Hd & Hrest). exists div, h. split; [|done].
    by apply lift_Ok.
Qed.

(** ** The accessible mask on the pressure gradient *)

Lemma lookup_field_op (L : Lib) (o : binop) (a b : Grid) (i : nat) (x y : Qc) :
  values a !! i = Some x → values b !! i = Some y →
  values (field_op L o a b) !! i = Some (eval_binop o x y).
Proof. intros Ha Hb. simpl. by rewrite lookup_zip_with, Ha, Hb. Qed.

(** C5.  [hard_bcs] is the accessible mask staggered onto the layout of
    the velocity with [math.minimum].  The operator of the solve and the
    final projection both multiply the pressure gradient by it: on a face
    where the mask is [b] the gradient [g] counts as [g * b] in [laplace],
    and the returned velocity is [u - g * b] where [u] is the velocity
    after the boundary conditions.  On a face where the mask is 0 the
    gradient counts as 0 and the velocity stays [u]. *)
Theorem pressure_gradient_masked (L : Lib) (velocity0 : Grid)
    (obstacles : list (Obstacle (Geometry L))) (i : nat) (b : Qc) :
  let active := active_mask L obstacles (resolution velocity0) (bounds velocity0) in
  let bcs := hard_bcs L velocity0 obstacles in
  let velocity1 := apply_boundary_conditions L velocity0 obstacles in
  values bcs !! i = Some b →
  bcs = stagger L (with_extrapolation active (accessible_extrapolation L velocity0))
                minimum (accessible_extrapolation L velocity0) (gtype velocity0) ∧
  (∀ p : Grid,
     laplace L (gtype velocity1) bcs (extrapolation velocity0) active p =
     field_where active
       (divergence L
          (with_extrapolation (masked_gradient L (gtype velocity1) bcs p)
                              (extrapolation velocity0))) p) ∧
  (∀ (p : Grid) (g : Qc),
     values (spatial_gradient L p (gtype velocity1)) !! i = Some g →
     values (masked_gradient L (gtype velocity1) bcs p) !! i = Some (g * b) ∧
     (b = 0 → values (masked_gradient L (gtype velocity1) bcs p) !! i = Some 0)) ∧
  (∀ (solve : loc) (h h' : heap) (velocity2 pressure : Grid) (u g : Qc),
     make_incompressible L velocity0 obstacles solve h = Ok ((velocity2, pressure), h') →
     values velocity1 !! i = Some u →
     values (spatial_gradient L pressure (gtype velocity1)) !! i = Some g →
     values velocity2 !! i = Some (u - g * b) ∧
     (b = 0 → values velocity2 !! i = Some u)).
Proof.
  intros active bcs velocity1 Hb.
  split; [reflexivity|]. split; [reflexivity|]. split.
  - intros p g Hg.
    assert (values (masked_gradient L (gtype velocity1) bcs p) !! i = Some (g * b)) as H.
    { unfold masked_gradient. by apply (lookup_field_op L Mul). }
    split; [done|]. intros ->. rewrite H. f_equal. ring.
  - intros solve h h' velocity2 pressure u g Hrun Hu Hg.
    apply make_incompressible_Ok in Hrun as (div & _ & Hrun).
    apply solve_and_project_Ok in Hrun as (l & h1 & p & _ & _ & Hout).
    injection Hout as -> ->.
    assert (∀ b', values bcs !! i = Some b' →
              values (field_op L Sub velocity1
                        (field_op L Mul
                           (spatial_gradient L (wrap_pressure L velocity0 obstacles p)
                              (gtype velocity1)) bcs)) !! i = Some (u - g * b')) as H.
    { intros b' Hb'. apply (lookup_field_op L Sub); [done|].
      by apply (lookup_field_op L Mul). }
    split; [exact (H b Hb)|].
    intros ->. pose proof (H 0 Hb) as H0.
    replace (u - g * 0) with u in H0 by ring. exact H0.
Qed.

Lemma pressure_gradient_masked_witness :
  let bcs := hard_bcs Periodic1D.lib Periodic1D.v4 [Periodic1D.wall] in
  values bcs !! 1%nat = Some 0 ∧
  values (masked_gradient Periodic1D.lib StaggeredGrid bcs Periodic1D.p4) !! 1%nat = Some 0.
Proof.
  intros bcs. split; [reflexivity|].
  destruct (pressure_gradient_masked Periodic1D.lib Periodic1D.v4 [Periodic1D.wall]
              1 0 eq_refl) as (_ & _ & Hm & _).
  destruct (Hm Periodic1D.p4 _ eq_refl) as [_ H0].
  exact (H0 eq_refl).
Defined.

(** ** Boundary conditions *)

Lemma foldl_stationary (L : Lib) (obstacles : list (Obstacle (Geometry L))) (v : Grid) :
  Forall (λ o, is_stationary o = true) obstacles →
  foldl (add_obstacle_velocity L) v obstacles = v.
Proof.
  intros Hall. revert v.
  induction Hall as [|o obstacles Ho _ IH]; intros v; simpl; [done|].
  rewrite IH. unfold add_obstacle_velocity. by rewrite Ho.
Qed.

Lemma lookup_rsub (c : Qc) (g : Grid) (i : nat) (m : Qc) :
  values g !! i = Some m → values (rsub c g) !! i = Some (c - m).
Proof. intros Hm. simpl. by rewrite list_lookup_fmap, Hm. Qed.

(** C6.  For a list of obstacles that is not empty and holds resting
    obstacles only, [apply_boundary_conditions] returns the baked velocity
    times [1 - HardGeometryMask(union of the geometries)] sampled at the
    baked velocity: no obstacle contributes a velocity of its own.  Where
    the hard mask is 1 (inside an obstacle) the result is 0, where it is 0
    the baked value is kept. *)
Theorem apply_boundary_conditions_stationary (L : Lib) (velocity0 : Grid)
    (obstacles : list (Obstacle (Geometry L))) :
  let baked := bake_extrapolation L velocity0 in
  let hard := HardGeometryMask_at L (union L (geometry <$> obstacles)) baked in
  obstacles ≠ [] →
  Forall (λ o, is_stationary o = true) obstacles →
  apply_boundary_conditions L velocity0 obstacles = field_op L Mul baked (rsub 1 hard) ∧
  ∀ (i : nat) (u m : Qc),
    values baked !! i = Some u →
    values hard !! i = Some m →
    values (apply_boundary_conditions L velocity0 obstacles) !! i = Some (u * (1 - m)) ∧
    (m = 1 → values (apply_boundary_conditions L velocity0 obstacles) !! i = Some 0) ∧
    (m = 0 → values (apply_boundary_conditions L velocity0 obstacles) !! i = Some u).
Proof.
  intros baked hard Hne Hall.
  assert (apply_boundary_conditions L velocity0 obstacles
          = field_op L Mul baked (rsub 1 hard)) as Heq.
  { unfold apply_boundary_conditions. destruct obstacles as [|o obstacles]; [done|].
    by rewrite foldl_stationary. }
  split; [done|]. intros i u m Hu Hm. rewrite Heq.
  assert (values (field_op L Mul baked (rsub 1 hard)) !! i = Some (u * (1 - m))) as H.
  { apply (lookup_field_op L Mul); [done|]. by apply lookup_rsub. }
  split; [done|]. split; intros ->; rewrite H; f_equal; ring.
Qed.

Lemma apply_boundary_conditions_stationary_witness :
  [Periodic1D.wall] ≠ [] ∧
  Forall (λ o, is_stationary o = true) [Periodic1D.wall] ∧
  Periodic1D.show (apply_boundary_conditions Periodic1D.lib Periodic1D.v4 [Periodic1D.wall])
    = [1%Q; 0%Q; 4%Q; 2%Q].
Proof.
  assert ([Periodic1D.wall] ≠ []) as Hne by discriminate.
  assert (Forall (λ o, is_stationary o = true) [Periodic1D.wall]) as Hall
    by (repeat constructor).
  split; [exact Hne|]. split; [exact Hall|].
  destruct (apply_boundary_conditions_stationary Periodic1D.lib Periodic1D.v4
              [Periodic1D.wall] Hne Hall) as [-> _].
  vm_compute. reflexivity.
Defined.

(** A moving obstacle does put its velocity on the grid. *)
Example moving_obstacle_blended :
  Periodic1D.show
    (apply_boundary_conditions Periodic1D.lib Periodic1D.v4
       [Periodic1D.wall; Periodic1D.paddle])
  = [1%Q; 0%Q; 5%Q; 2%Q].
Proof. vm_compute. reflexivity. Qed.

(** ** The inference that is not there *)

(** C7.  [_infer_pressure_extrapolation_from_velocity] ends with
    [NotImplementedError] on every input and returns no value. *)
Theorem infer_pressure_extrapolation_raises (e : Extrapolation) :
  _infer_pressure_extrapolation_from_velocity e = Err NotImplementedError ∧
  ∀ r : Extrapolation, _infer_pressure_extrapolation_from_velocity e ≠ Ok r.
Proof. split; [reflexivity | discriminate]. Qed.

(** ** The division in [_balance_divergence] *)

Lemma mean_error (g : Grid) (e : error) : mean g = Err e → e = ZeroDivision.
Proof.
  unfold mean. intros H. apply divide_inv in H as [[_ H]|[_ H]]; congruence.
Qed.

Lemma balance_divergence_defined (L : Lib) (div active : Grid) :
  (∃ r, _balance_divergence L div active = Ok r) ↔
  (∃ md, mean div = Ok md) ∧ (∃ ma, mean active = Ok ma ∧ ma ≠ 0).
Proof.
  split.
  - intros [r Hr]. unfold _balance_divergence in Hr.
    destruct (mean div) as [md|] eqn:Hd; [|done].
    destruct (mean active) as [ma|] eqn:Ha; [|done].
    simpl in Hr. split; [by exists md|]. exists ma. split; [done|].
    intros ->. by rewrite divide_Err in Hr.
  - intros [[md Hd] (ma & Ha & Hma)]. eexists. by apply balance_divergence_eq.
Qed.

Lemma balance_divergence_error (L : Lib) (div active : Grid) (e : error) :
  _balance_divergence L div active = Err e → e = ZeroDivision.
Proof.
  unfold _balance_divergence. intros H.
  destruct (mean div) as [md|e1] eqn:Hd.
  - destruct (mean active) as [ma|e2] eqn:Ha.
    + simpl in H. destruct (divide_inv md ma _ eq_refl) as [[_ Hq]|[_ Hq]];
        rewrite Hq in H; simpl in H; [congruence | done].
    + simpl in H. apply mean_error in Ha. congruence.
  - simpl in H. apply mean_error in Hd. congruence.
Qed.

Lemma mean_zero_iff (g : Grid) (m : Qc) :
  mean g = Ok m → m = 0 ↔ sum (values g) = 0.
Proof.
  intros H. unfold mean in H. apply divide_inv in H as [[_ ?]|[Hn H]]; [done|].
  injection H as ->. split.
  - intros Hz.
    replace (sum (values g))
      with (sum (values g) / Qc_of_Z (Z.of_nat (length (values g)))
            * Qc_of_Z (Z.of_nat (length (values g)))) by (field; done).
    rewrite Hz. ring.
  - intros ->. unfold Qcdiv. ring.
Qed.

Lemma mask_sum_zero_iff (l : list Qc) :
  Forall (λ x, x = 0 ∨ x = 1) l →
  sum l = 0 ↔ Forall (λ x, x = 0) l.
Proof.
  intros Hmask. split; [|apply sum_all_zero].
  apply sum_zero_all_zero. eapply Forall_impl; [exact Hmask|].
  intros x [->| ->]; done.
Qed.

Lemma mask_some_active (l : list Qc) :
  Forall (λ x, x = 0 ∨ x = 1) l →
  ¬ Forall (λ x, x = 0) l ↔ Exists (λ x, x = 1) l.
Proof.
  intros Hmask. split.
  - intros Hn. apply not_Forall_Exists in Hn; [|intros x; apply _].
    apply Exists_exists in Hn as (x & Hx & Hnz). apply Exists_exists.
    exists x. split; [done|].
    rewrite Forall_forall in Hmask. by destruct (Hmask x Hx).
  - intros Hex Hall. apply Exists_exists in Hex as (x & Hx & ->).
    rewrite Forall_forall in Hall. by specialize (Hall _ Hx).
Qed.

(** C8.  [_balance_divergence] returns a field exactly when both means
    are defined and the mean of the active mask is not zero, and ends in a
    division by zero otherwise; for a mask of zeros and ones on a grid
    with at least one cell this asks for one active cell.  When the
    obstacles leave no active cell and the rule of the velocity is [ZERO]
    or [PERIODIC], [make_incompressible] ends in that division by zero. *)
Theorem balance_divergence_zero_division (L : Lib) :
  (∀ div active : Grid,
     (∃ r, _balance_divergence L div active = Ok r) ↔
     (∃ md, mean div = Ok md) ∧ (∃ ma, mean active = Ok ma ∧ ma ≠ 0)) ∧
  (∀ (div active : Grid) (e : error),
     _balance_divergence L div active = Err e → e = ZeroDivision) ∧
  (∀ active : Grid,
     values active ≠ [] →
     Forall (λ x, x = 0 ∨ x = 1) (values active) →
     (∃ ma, mean active = Ok ma ∧ ma ≠ 0) ↔ Exists (λ x, x = 1) (values active)) ∧
  (∀ (velocity0 : Grid) (obstacles : list (Obstacle (Geometry L))) (solve : loc)
     (h : heap),
     extrapolation velocity0 = ZERO ∨ extrapolation velocity0 = PERIODIC →
     Forall (λ x, x = 0)
       (values (active_mask L obstacles (resolution velocity0) (bounds velocity0))) →
     make_incompressible L velocity0 obstacles solve h = Err ZeroDivision).
Proof.
  split; [apply balance_divergence_defined|].
  split; [apply balance_divergence_error|].
  split.
  - intros active Hne Hmask.
    pose proof (mean_nonempty active Hne) as Hm.
    rewrite <- (mask_some_active _ Hmask), <- (mask_sum_zero_iff _ Hmask).
    rewrite <- (mean_zero_iff _ _ Hm). split.
    + intros (ma & Hma & Hnz). congruence.
    + intros Hnz. eauto.
  - intros velocity0 obstacles solve h Hext Hzero.
    unfold make_incompressible. apply bind_Err.
    unfold masked_divergence.
    apply closed_or_periodic_spec in Hext. rewrite Hext.
    set (active := active_mask L obstacles _ _) in *.
    set (div := field_op L Mul _ active).
    destruct (_balance_divergence L div active) as [r|e] eqn:Hb.
    + exfalso.
      destruct (proj1 (balance_divergence_defined L div active)) as [_ (ma & Hma & Hnz)];
        [eauto|].
      apply Hnz. apply (mean_zero_iff _ _ Hma). by apply sum_all_zero.
    + apply balance_divergence_error in Hb as ->. done.
Qed.

Lemma balance_divergence_zero_division_witness :
  make_incompressible Periodic1D.lib Periodic1D.v4 [Periodic1D.block]
    default_solve_loc module_heap = Err ZeroDivision.
Proof.
  destruct (balance_divergence_zero_division Periodic1D.lib) as (_ & _ & _ & H).
  apply H.
  - right. reflexivity.
  - repeat constructor.
Defined.

(** ** The solve configuration *)

Lemma deref_Ok (l : loc) (h h' : heap) (s : Solve) :
  deref l h = Ok (s, h') ↔ h !! l = Some s ∧ h' = h.
Proof.
  unfold deref. destruct (h !! l) as [s'|]; split.
  - intros [= -> ->]. done.
  - intros [[= ->] ->]. done.
  - done.
  - intros [[=] _].
Qed.

Lemma with_initial_guess_spec (solve : loc) (div : Grid) (pe : Extrapolation)
    (h : heap) (s : Solve) :
  h !! solve = Some s →
  ∃ (l : loc) (h1 : heap),
    with_initial_guess solve div pe h = Ok (l, h1) ∧
    (∀ l' s', h !! l' = Some s' → h1 !! l' = Some s') ∧
    (x0 s = None →
       l ≠ solve ∧ h !! l = None ∧
       h1 !! l = Some (mkSolve (solver s) (relative_tolerance s) (absolute_tolerance s)
                         (gradient_solve s)
                         (Some (constant_grid 0 (resolution div) (bounds div) pe)))) ∧
    (x0 s ≠ None → l = solve ∧ h1 = h).
Proof.
  intros Hs. unfold with_initial_guess, copy_with_x0, alloc.
  unfold mbind, M_bind, deref. rewrite Hs.
  destruct (x0 s) as [g|] eqn:Hx0.
  - exists solve, h. repeat split; try done.
  - rewrite Hs. set (l := fresh (dom h)).
    assert (h !! l = None) as Hfresh.
    { apply not_elem_of_dom. apply is_fresh. }
    eexists l, _. split; [reflexivity|]. split; [|split].
    + intros l' s' Hl'. rewrite lookup_insert_ne; [done|]. congruence.
    + intros _. split; [congruence|]. split; [done|]. by rewrite lookup_insert_eq.
    + done.
Qed.

(** C9.  [make_incompressible] assigns no attribute of the configuration
    it is given.  Setting up the initial guess leaves every object of the
    store as it was; when [solve.x0] is [None] the configuration handed to
    the solver is a new object, the copy with the zero pressure as [x0],
    and otherwise it is the caller's object itself.  So with [x0] at
    [None], and a solver that assigns only to the configuration it gets,
    the caller's object (the default of the module as well) is after the
    call what it was before. *)
Theorem solve_configuration_preserved (L : Lib) (velocity0 : Grid)
    (obstacles : list (Obstacle (Geometry L))) (solve : loc) (h : heap) (s : Solve) :
  h !! solve = Some s →
  (∀ (div : Grid) (pe : Extrapolation),
     ∃ (l : loc) (h1 : heap),
       with_initial_guess solve div pe h = Ok (l, h1) ∧
       (∀ l' s', h !! l' = Some s' → h1 !! l' = Some s') ∧
       (x0 s = None →
          l ≠ solve ∧ h !! l = None ∧
          h1 !! l = Some (mkSolve (solver s) (relative_tolerance s)
                            (absolute_tolerance s) (gradient_solve s)
                            (Some (constant_grid 0 (resolution div) (bounds div) pe)))) ∧
       (x0 s ≠ None → l = solve ∧ h1 = h)) ∧
  (x0 s = None →
   solver_frame L →
   ∀ (out : Grid * Grid) (h' : heap),
     make_incompressible L velocity0 obstacles solve h = Ok (out, h') →
     h' !! solve = Some s).
Proof.
  intros Hs. split.
  - intros div pe. by apply with_initial_guess_spec.
  - intros Hx0 Hframe out h' Hrun.
    apply make_incompressible_Ok in Hrun as (div & _ & Hrun).
    apply solve_and_project_Ok in Hrun as (l & h1 & p & Hguess & Hsolve & _).
    destruct (with_initial_guess_spec solve div (pressure_extrapolation L velocity0)
                h s Hs) as (l0 & h0 & Hguess0 & Hkeep & Hnew & _).
    rewrite Hguess in Hguess0. injection Hguess0 as <- <-.
    destruct (Hnew Hx0) as (Hne & _ & _).
    rewrite (Hframe _ _ _ _ _ _ Hsolve solve) by congruence.
    by apply Hkeep.
Qed.

Lemma solve_linear1D_frame : solver_frame Periodic1D.lib.
Proof.
  intros f y l h h' r Hrun l' Hne. simpl in Hrun.
  unfold Periodic1D.solve_linear1D in Hrun.
  apply bind_Ok in Hrun as (s & h1 & Hd & Hrun).
  apply deref_Ok in Hd as [Hs ->].
  destruct (x0 s) as [x|]; [|done].
  apply bind_Ok in Hrun as ([] & h2 & Hst & Hret).
  unfold store in Hst. unfold mret, M_ret in Hret. simplify_eq.
  by rewrite lookup_insert_ne.
Qed.

Lemma solve_configuration_preserved_witness :
  module_heap !! default_solve_loc = Some default_solve ∧
  ∃ (out : Grid * Grid) (h' : heap),
    make_incompressible Periodic1D.lib Periodic1D.v4 [Periodic1D.wall]
      default_solve_loc module_heap = Ok (out, h') ∧
    h' !! default_solve_loc = Some default_solve.
Proof.
  assert (module_heap !! default_solve_loc = Some default_solve) as Hs by reflexivity.
  split; [exact Hs|].
  destruct (make_incompressible Periodic1D.lib Periodic1D.v4 [Periodic1D.wall]
              default_solve_loc module_heap) as [[out h']|e] eqn:Hrun.
  - exists out, h'. split; [reflexivity|].
    destruct (solve_configuration_preserved Periodic1D.lib Periodic1D.v4
                [Periodic1D.wall] default_solve_loc module_heap default_solve Hs)
      as [_ Hkeep].
    exact (Hkeep eq_refl solve_linear1D_frame out h' Hrun).
  - exfalso. vm_compute in Hrun. discriminate Hrun.
Defined.

(** The solver of the example grid did assign: to the copy. *)
Example solver_wrote_to_the_copy :
  ∃ (out : Grid * Grid) (h' : heap),
    make_incompressible Periodic1D.lib Periodic1D.v4 [Periodic1D.wall]
      default_solve_loc module_heap = Ok (out, h') ∧
    x0 <$> h' !! default_solve_loc = Some None ∧
    (Periodic1D.show <$> (h' !! 3%positive ≫= x0)) = Some (Periodic1D.show out.2).
Proof.
  destruct (make_incompressible Periodic1D.lib Periodic1D.v4 [Periodic1D.wall]
              default_solve_loc module_heap) as [[out h']|e] eqn:Hrun;
    vm_compute in Hrun; [|discriminate Hrun].
  exists out, h'. split; [reflexivity|].
  injection Hrun as <- <-. split; vm_compute; reflexivity.
Qed.

(** ** The gradient hook *)

(** C10.  The hook of lines 58-63 has the identity as its forward
    function: whatever the backward rule, calling it returns its argument.
    So [make_incompressible] computes what the projection without the hook
    computes, and it returns a pressure exactly when the linear solver
    returned that pressure. *)
Theorem custom_gradient_forward_identity (L : Lib) (velocity0 : Grid)
    (obstacles : list (Obstacle (Geometry L))) (solve : loc) (h : heap) :
  let active := active_mask L obstacles (resolution velocity0) (bounds velocity0) in
  let bcs := hard_bcs L velocity0 obstacles in
  let velocity1 := apply_boundary_conditions L velocity0 obstacles in
  (∀ (rule : Grid → Grid → Grid → result Grid) (p : Grid),
     call (custom_gradient (λ p, p) rule) p = p) ∧
  (∀ p : Grid, wrap_pressure L velocity0 obstacles p = p) ∧
  make_incompressible L velocity0 obstacles solve h =
    make_incompressible_without_hook L velocity0 obstacles solve h ∧
  (∀ (velocity2 pressure : Grid) (h' : heap),
     make_incompressible L velocity0 obstacles solve h = Ok ((velocity2, pressure), h') ↔
     ∃ (div : Grid) (l : loc) (h1 : heap),
       masked_divergence L velocity0 velocity1 obstacles = Ok div ∧
       with_initial_guess solve div (pressure_extrapolation L velocity0) h = Ok (l, h1) ∧
       solve_linear L
         (laplace L (gtype velocity1) bcs (extrapolation velocity0) active) div l h1
         = Ok (pressure, h') ∧
       velocity2 =
         with_extrapolation
           (field_op L Sub velocity1
              (field_op L Mul (spatial_gradient L pressure (gtype velocity1)) bcs))
           (extrapolation velocity0)).
Proof.
  intros active bcs velocity1.
  split; [reflexivity|]. split; [apply wrap_pressure_id|]. split.
  - unfold make_incompressible, make_incompressible_without_hook, solve_and_project.
    unfold mbind, M_bind, lift.
    destruct (masked_divergence _ _ _ _) as [div|e]; [|done].
    destruct (with_initial_guess _ _ _ h) as [[l h1]|e]; [|done].
    destruct (solve_linear _ _ _ _ _) as [[p h2]|e]; [|done].
    by rewrite wrap_pressure_id.
  - intros velocity2 pressure h'. rewrite make_incompressible_Ok. split.
    + intros (div & Hdiv & Hrun).
      apply solve_and_project_Ok in Hrun as (l & h1 & p & Hguess & Hsolve & Hout).
      rewrite wrap_pressure_id in Hout. injection Hout as -> ->.
      exists div, l, h1. done.
    + intros (div & l & h1 & Hdiv & Hguess & Hsolve & ->).
      exists div. split; [done|]. apply solve_and_project_Ok.
      exists l, h1, pressure. rewrite wrap_pressure_id. done.
Qed.

(** ** More on the mass balance *)

Lemma lookup_scale (g : Grid) (c : Qc) (i : nat) (m : Qc) :
  values g !! i = Some m → values (scale g c) !! i = Some (m * c).
Proof. intros Hm. simpl. by rewrite list_lookup_fmap, Hm. Qed.

(** The correction touches the active cells only: in a cell of mask value
    [m] the balanced divergence is [d - m * (mean(div) / mean(active))],
    so a cell inside an obstacle keeps its value and every cell of mask 1
    loses the same share. *)
Lemma balance_divergence_pointwise (L : Lib) (div active : Grid) (md ma : Qc)
    (i : nat) (d m : Qc) :
  mean div = Ok md →
  mean active = Ok ma →
  ma ≠ 0 →
  values div !! i = Some d →
  values active !! i = Some m →
  ∃ div',
    _balance_divergence L div active = Ok div' ∧
    values div' !! i = Some (d - m * (md / ma)) ∧
    (m = 0 → values div' !! i = Some d) ∧
    (m = 1 → values div' !! i = Some (d - md / ma)).
Proof.
  intros Hd Ha Hma Hi Hm.
  exists (field_op L Sub div (scale active (md / ma))).
  split; [by apply balance_divergence_eq|].
  assert (values (field_op L Sub div (scale active (md / ma))) !! i
          = Some (d - m * (md / ma))) as H.
  { apply (lookup_field_op L Sub); [done|]. by apply lookup_scale. }
  split; [done|]. split; intros ->; rewrite H; f_equal; ring.
Qed.

Lemma balance_divergence_pointwise_witness :
  let active := active_mask Periodic1D.lib [Periodic1D.wall] [4%nat] Periodic1D.unit_box in
  let div :=
    field_op Periodic1D.lib Mul
      (divergence Periodic1D.lib
         (apply_boundary_conditions Periodic1D.lib Periodic1D.v4 [Periodic1D.wall]))
      active in
  values active !! 1%nat = Some 0 ∧
  ∃ div',
    _balance_divergence Periodic1D.lib div active = Ok div' ∧
    values div' !! 1%nat = values div !! 1%nat.
Proof.
  intros active div. split; [reflexivity|].
  destruct (balance_divergence_pointwise Periodic1D.lib div active
              (sum (values div) / Periodic1D.of_Z 4)
              (sum (values active) / Periodic1D.of_Z 4) 1
              (Periodic1D.of_Z 0 * 0) 0)
    as (div' & Hb & _ & Hzero & _).
  - apply mean_nonempty. discriminate.
  - apply mean_nonempty. discriminate.
  - intros H. apply (f_equal this) in H. vm_compute in H. discriminate.
  - reflexivity.
  - reflexivity.
  - exists div'. split; [assumption|]. rewrite (Hzero eq_refl). reflexivity.
Defined.








Lemma Qc_of_Z_succ (z : Z) : Qc_of_Z (Z.succ z) = Qc_of_Z z + 1.
Proof.
  apply Qc_is_canon. simpl. rewrite Qred_correct.
  unfold Qeq, Qplus, inject_Z. simpl. lia.
Qed.

Lemma sum_all_one (l : list Qc) :
  Forall (λ x, x = 1) l → sum l = Qc_of_Z (Z.of_nat (length l)).
Proof.
  induction 1 as [|x l -> _ IH].
  - by apply Qc_is_canon.
  - cbn [sum length]. rewrite Nat2Z.inj_succ, Qc_of_Z_succ, IH. ring.
Qed.

Lemma zip_with_minus_all_one (l k : list Qc) (c : Qc) :
  length l = length k → Forall (λ x, x = 1) k →
  zip_with Qcminus l ((λ x, x * c) <$> k) = (λ x, x - c) <$> l.
Proof.
  intros Hlen Hone. revert l Hlen.
  induction Hone as [|y k -> _ IH]; intros [|x l] Hlen; simplify_eq/=; [done|].
  f_equal; [ring | by apply IH].
Qed.

(** Without obstacles every cell is active, and balancing subtracts the
    mean of the divergence from every cell. *)
Lemma balance_divergence_all_active (L : Lib) (div active : Grid) :
  values div ≠ [] →
  length (values div) = length (values active) →
  Forall (λ x, x = 1) (values active) →
  ∃ md div',
    mean div = Ok md ∧
    _balance_divergence L div active = Ok div' ∧
    values div' = (λ x, x - md) <$> values div.
Proof.
  intros Hne Hlen Hone.
  assert (values active ≠ []) as Hane.
  { intros Hnil. rewrite Hnil in Hlen. destruct (values div); done. }
  pose proof (mean_nonempty div Hne) as Hd.
  pose proof (mean_nonempty active Hane) as Ha.
  rewrite (sum_all_one _ Hone) in Ha.
  set (n := Qc_of_Z (Z.of_nat (length (values active)))) in *.
  assert (n ≠ 0) as Hn.
  { unfold n. rewrite Qc_of_nat_zero. destruct (values active); simpl; [done|lia]. }
  assert (n / n = 1) as Hnn by (field; done).
  rewrite Hnn in Ha.
  eexists _, _. split; [exact Hd|].
  split; [apply (balance_divergence_eq L div active _ 1 Hd Ha); done|].
  simpl. rewrite zip_with_minus_all_one by done.
  apply list_fmap_ext. intros j x _. by rewrite (right_id 1 Qcdiv).
Qed.

Lemma balance_divergence_all_active_witness :
  let active := active_mask Periodic1D.lib [] [4%nat] Periodic1D.unit_box in
  ∃ md div',
    mean Periodic1D.p4 = Ok md ∧
    _balance_divergence Periodic1D.lib Periodic1D.p4 active = Ok div' ∧
    values div' = (λ x, x - md) <$> values Periodic1D.p4.
Proof.
  intros active.
  apply (balance_divergence_all_active Periodic1D.lib Periodic1D.p4 active).
  - discriminate.
  - reflexivity.
  - repeat constructor.
Defined.

(** ** More on the right-hand side and the backward rule *)






(** ** More on the boundary conditions *)

Lemma foldl_moving_only (L : Lib) (obstacles : list (Obstacle (Geometry L))) (v : Grid) :
  foldl (add_obstacle_velocity L) v obstacles =
  foldl (add_obstacle_velocity L) v (filter (λ o, is_stationary o = false) obstacles).
Proof.
  revert v. induction obstacles as [|o obstacles IH]; intros v; [done|].
  rewrite filter_cons. simpl. case_decide as Ho.
  - simpl. apply IH.
  - rewrite IH. f_equal. unfold add_obstacle_velocity.
    destruct (is_stationary o); done.
Qed.

(** A resting obstacle acts through the hard mask only: the loop over the
    obstacles does what it would do on the moving ones alone, in their
    order, while the hard mask is that of all the geometries. *)
Lemma apply_boundary_conditions_moving_only (L : Lib) (velocity0 : Grid)
    (o : Obstacle (Geometry L)) (obstacles : list (Obstacle (Geometry L))) :
  let baked := bake_extrapolation L velocity0 in
  let hard := HardGeometryMask_at L (union L (geometry <$> o :: obstacles)) baked in
  apply_boundary_conditions L velocity0 (o :: obstacles) =
  foldl (add_obstacle_velocity L) (field_op L Mul baked (rsub 1 hard))
        (filter (λ o, is_stationary o = false) (o :: obstacles)).
Proof.
  intros baked hard. unfold apply_boundary_conditions.
  fold baked. fold hard. apply foldl_moving_only.
Qed.

(** The blends pile up in the order of the list: for a moving obstacle at
    the end, with soft mask [s], a cell holds [(1 - s) * u + s * w], where
    [u] is what the obstacles before it left and [w] is the velocity of
    the obstacle (angular plus linear).  Where its soft mask is 1 the
    obstacle's velocity replaces whatever was there, where it is 0 nothing
    changes. *)
Lemma apply_boundary_conditions_last_moving (L : Lib) (velocity0 : Grid)
    (obstacles : list (Obstacle (Geometry L))) (o : Obstacle (Geometry L))
    (i : nat) (s u w : Qc) :
  let baked := bake_extrapolation L velocity0 in
  let hard := HardGeometryMask_at L (union L (geometry <$> obstacles ++ [o])) baked in
  let before :=
    foldl (add_obstacle_velocity L) (field_op L Mul baked (rsub 1 hard)) obstacles in
  let obs_vel :=
    add_vector L
      (AngularVelocity_at L (center L (geometry o)) (angular_velocity o) before)
      (velocity o) in
  is_stationary o = false →
  values (SoftGeometryMask_at L (geometry o) 1 before) !! i = Some s →
  values before !! i = Some u →
  values obs_vel !! i = Some w →
  values (apply_boundary_conditions L velocity0 (obstacles ++ [o])) !! i
    = Some ((1 - s) * u + s * w) ∧
  (s = 1 → values (apply_boundary_conditions L velocity0 (obstacles ++ [o])) !! i
           = Some w) ∧
  (s = 0 → values (apply_boundary_conditions L velocity0 (obstacles ++ [o])) !! i
           = Some u).
Proof.
  intros baked hard before obs_vel Hmoving Hs Hu Hw.
  assert (apply_boundary_conditions L velocity0 (obstacles ++ [o]) =
          add_obstacle_velocity L before o) as ->.
  { unfold before, hard, baked. rewrite <- foldl_snoc.
    generalize (obstacles ++ [o]) (app_cons_not_nil obstacles [] o).
    intros [|o' rest] Hne; [done|]. reflexivity. }
  unfold add_obstacle_velocity. rewrite Hmoving. cbn [negb]. fold obs_vel.
  assert (values
            (field_op L Add
               (field_op L Mul (rsub 1 (SoftGeometryMask_at L (geometry o) 1 before)) before)
               (field_op L Mul (SoftGeometryMask_at L (geometry o) 1 before) obs_vel)) !! i
          = Some ((1 - s) * u + s * w)) as H.
  { apply (lookup_field_op L Add).
    - apply (lookup_field_op L Mul); [by apply lookup_rsub | done].
    - by apply (lookup_field_op L Mul). }
  split; [done|]. split; intros ->; rewrite H; f_equal; ring.
Qed.

Lemma apply_boundary_conditions_last_moving_witness :
  is_stationary Periodic1D.paddle = false ∧
  values (apply_boundary_conditions Periodic1D.lib Periodic1D.v4
            ([Periodic1D.wall] ++ [Periodic1D.paddle])) !! 2%nat
  = Some (0 + Periodic1D.of_Z 5).
Proof.
  split; [reflexivity|].
  destruct (apply_boundary_conditions_last_moving Periodic1D.lib Periodic1D.v4
              [Periodic1D.wall] Periodic1D.paddle 2 1 _ _
              eq_refl eq_refl eq_refl eq_refl) as (_ & Hone & _).
  exact (Hone eq_refl).
Defined.

(** ** How the projection fails *)



